(** * Spatial_Audio_Framework: md_malloc, the ambi_dec / powermap internal
    headers, and the codec lifecycle of the specification.

    - [MdMalloc]   : framework/resources/md_malloc/md_malloc.c
    - [Lifecycle]  : the CODEC_STATUS / PROC_STATUS pairing
    - [Filterbank] : the filterbank macros of ambi_dec_internal.h and
                     powermap_internal.h *)

From Stdlib Require Import ZArith Lia List.
From stdpp Require Import base option gmap list.

Local Open Scope Z_scope.

(* ===================================================================== *)
(** ** md_malloc.c: contiguous multidimensional "arrays"                 *)
(* ===================================================================== *)

Module MdMalloc.

(** The C null pointer. *)
Definition NULL : Z := 0.

(** What the functions of md_malloc.c see of the C memory:
    - [blocks]: the live allocations of the libc heap, base address to
      length in bytes;
    - [cells]:  the pointer values stored so far, keyed by the byte address
      of the pointer-sized cell they were written to;
    - [frees]:  the pointers passed to libc's [free], most recent first.
    Data bytes are not tracked: md_malloc.c never reads or writes them. *)
Record mem := Mem {
  blocks : gmap Z Z;
  cells : gmap Z Z;
  frees : list Z
}.

Definition empty_mem : mem := Mem ∅ ∅ [].

Section md_malloc.

(** [sizeof_ptr] is sizeof(void* ) (= sizeof(void** )); [size_mod] is
    SIZE_MAX + 1, so a size_t value is an integer in [0, size_mod) and every
    size_t operation is taken modulo [size_mod]. *)
Variable sizeof_ptr : Z.
Variable size_mod : Z.

Definition wrap (x : Z) : Z := x mod size_mod.

Definition is_size_t (x : Z) : Prop := 0 <= x < size_mod.

(** *** libc, as md_malloc.c uses it

    The allocator's choice is not the program's: [a] is the address libc
    answers with, [NULL] when it fails. *)

Definition malloc (a n : Z) (s : mem) : Z * mem :=
  if decide (a = NULL) then (NULL, s)
  else (a, Mem (<[a := n]> (blocks s)) (cells s) (frees s)).

(** calloc(nmemb, size) fails when nmemb * size does not fit a size_t. Its
    zero fill is not followed: [cells] holds pointer values only. *)
Definition calloc (a nmemb size : Z) (s : mem) : Z * mem :=
  if decide (a = NULL) then (NULL, s)
  else if decide (size_mod <= nmemb * size) then (NULL, s)
  else (a, Mem (<[a := nmemb * size]> (blocks s)) (cells s) (frees s)).

(** realloc(p, n): on failure the old block stays; on success it is
    replaced by the block at [a]. The copy of the old content is not
    followed: [cells] holds pointer values only. *)
Definition realloc (a p n : Z) (s : mem) : Z * mem :=
  if decide (a = NULL) then (NULL, s)
  else (a, Mem (<[a := n]> (delete p (blocks s))) (cells s) (frees s)).

Definition free (p : Z) (s : mem) : mem :=
  Mem (delete p (blocks s)) (cells s) (p :: frees s).

(** [base[off / sizeof_ptr] = v] for a pointer [base] to the start of an
    allocation: defined only inside that allocation. *)
Definition store (base off v : Z) (s : mem) : option mem :=
  if decide (base = NULL) then None
  else match blocks s !! base with
       | Some n =>
           if decide (0 <= off ∧ off + sizeof_ptr <= n)
           then Some (Mem (blocks s) (<[base + off := v]> (cells s)) (frees s))
           else None
       | None => None
       end.

Definition load (addr : Z) (s : mem) : option Z := cells s !! addr.

(** *** 1-D *)

Definition malloc1d (a dim1_data_size : Z) (s : mem) : Z * mem :=
  malloc a dim1_data_size s.

Definition calloc1d (a dim1 data_size : Z) (s : mem) : Z * mem :=
  calloc a dim1 data_size s.

Definition realloc1d (a ptr dim1_data_size : Z) (s : mem) : Z * mem :=
  realloc a ptr dim1_data_size s.

(** free1d(void** ptr): [cell] is the content of [*ptr]; the result is the
    new content of [*ptr] and the memory. *)
Definition free1d (cell : Z) (s : mem) : Z * mem :=
  if decide (cell ≠ NULL) then (NULL, free cell s) else (cell, s).

(** *** 2-D *)

(** for(i=0; i<dim1; i++) ptr[i] = &p2[i*stride];
    [n] counts the iterations left, [i] is the loop variable. *)
Fixpoint set_rows (n : nat) (i ptr p2 stride : Z) (s : mem) : option mem :=
  match n with
  | O => Some s
  | S n' =>
      s' ← store ptr (i * sizeof_ptr) (p2 + wrap (i * stride)) s;
      set_rows n' (i + 1) ptr p2 stride s'
  end.

Definition size2d (dim1 stride : Z) : Z :=
  wrap (wrap (dim1 * sizeof_ptr) + wrap (dim1 * stride)).

Definition init2d (ptr dim1 stride : Z) (s : mem) : option (Z * mem) :=
  let p2 := ptr + dim1 * sizeof_ptr in
  s' ← set_rows (Z.to_nat dim1) 0 ptr p2 stride s;
  Some (ptr, s').

Definition malloc2d (a dim1 dim2 data_size : Z) (s : mem) : option (Z * mem) :=
  let stride := wrap (dim2 * data_size) in
  let '(ptr, s1) := malloc a (size2d dim1 stride) s in
  init2d ptr dim1 stride s1.

Definition calloc2d (a dim1 dim2 data_size : Z) (s : mem) : option (Z * mem) :=
  let stride := wrap (dim2 * data_size) in
  let '(ptr, s1) := calloc a dim1 (wrap (sizeof_ptr + stride)) s in
  init2d ptr dim1 stride s1.

Definition realloc2d (a old dim1 dim2 data_size : Z) (s : mem)
  : option (Z * mem) :=
  let stride := wrap (dim2 * data_size) in
  let '(ptr, s1) := realloc a old (size2d dim1 stride) s in
  init2d ptr dim1 stride s1.

Definition free2d (cell : Z) (s : mem) : Z * mem :=
  if decide (cell ≠ NULL) then (NULL, free cell s) else (cell, s).

(** &ptr[i][j], for elements of [data_size] bytes. *)
Definition index2d (s : mem) (ptr i j data_size : Z) : option Z :=
  row ← load (ptr + i * sizeof_ptr) s;
  Some (row + j * data_size).

(** *** 3-D *)

(** for(i=0;i<dim1;i++) ptr[i] = &p2[i*dim2]; *)
Fixpoint set_planes (n : nat) (i ptr p2 dim2 : Z) (s : mem) : option mem :=
  match n with
  | O => Some s
  | S n' =>
      s' ← store ptr (i * sizeof_ptr) (p2 + wrap (i * dim2) * sizeof_ptr) s;
      set_planes n' (i + 1) ptr p2 dim2 s'
  end.

(** for(j=0;j<dim2;j++) p2[i*dim2+j] = &p3[i*stride1 + j*stride2];
    [p2] lies [p2off] bytes into the allocation [ptr] points to. *)
Fixpoint set_rows3 (m : nat) (i j ptr p2off p3 dim2 stride1 stride2 : Z)
  (s : mem) : option mem :=
  match m with
  | O => Some s
  | S m' =>
      s' ← store ptr (p2off + wrap (wrap (i * dim2) + j) * sizeof_ptr)
                 (p3 + wrap (wrap (i * stride1) + wrap (j * stride2))) s;
      set_rows3 m' i (j + 1) ptr p2off p3 dim2 stride1 stride2 s'
  end.

(** for(i=0;i<dim1;i++) for(j=0;j<dim2;j++) ... *)
Fixpoint set_cells3 (n : nat) (i ptr p2off p3 dim2 stride1 stride2 : Z)
  (s : mem) : option mem :=
  match n with
  | O => Some s
  | S n' =>
      s' ← set_rows3 (Z.to_nat dim2) i 0 ptr p2off p3 dim2 stride1 stride2 s;
      set_cells3 n' (i + 1) ptr p2off p3 dim2 stride1 stride2 s'
  end.

Definition size3d (dim1 dim2 stride1 : Z) : Z :=
  wrap (wrap (wrap (dim1 * sizeof_ptr) + wrap (wrap (dim1 * dim2) * sizeof_ptr))
        + wrap (dim1 * stride1)).

Definition init3d (ptr dim1 dim2 stride1 stride2 : Z) (s : mem)
  : option (Z * mem) :=
  let p2off := dim1 * sizeof_ptr in
  let p2 := ptr + p2off in
  let p3 := p2 + wrap (dim1 * dim2) * sizeof_ptr in
  s1 ← set_planes (Z.to_nat dim1) 0 ptr p2 dim2 s;
  s2 ← set_cells3 (Z.to_nat dim1) 0 ptr p2off p3 dim2 stride1 stride2 s1;
  Some (ptr, s2).

Definition malloc3d (a dim1 dim2 dim3 data_size : Z) (s : mem)
  : option (Z * mem) :=
  let stride1 := wrap (wrap (dim2 * dim3) * data_size) in
  let stride2 := wrap (dim3 * data_size) in
  let '(ptr, s1) := malloc a (size3d dim1 dim2 stride1) s in
  init3d ptr dim1 dim2 stride1 stride2 s1.

Definition calloc3d (a dim1 dim2 dim3 data_size : Z) (s : mem)
  : option (Z * mem) :=
  let stride1 := wrap (wrap (dim2 * dim3) * data_size) in
  let stride2 := wrap (dim3 * data_size) in
  let '(ptr, s1) :=
    calloc a dim1 (wrap (wrap (sizeof_ptr + wrap (dim2 * sizeof_ptr)) + stride1)) s in
  init3d ptr dim1 dim2 stride1 stride2 s1.

Definition realloc3d (a old dim1 dim2 dim3 data_size : Z) (s : mem)
  : option (Z * mem) :=
  let stride1 := wrap (wrap (dim2 * dim3) * data_size) in
  let stride2 := wrap (dim3 * data_size) in
  let '(ptr, s1) := realloc a old (size3d dim1 dim2 stride1) s in
  init3d ptr dim1 dim2 stride1 stride2 s1.

Definition free3d (cell : Z) (s : mem) : Z * mem :=
  if decide (cell ≠ NULL) then (NULL, free cell s) else (cell, s).

(** &ptr[i][j][k], for elements of [data_size] bytes. *)
Definition index3d (s : mem) (ptr i j k data_size : Z) : option Z :=
  plane ← load (ptr + i * sizeof_ptr) s;
  row ← load (plane + j * sizeof_ptr) s;
  Some (row + k * data_size).

(** *** What the allocation functions promise

    The data region starts right after the pointer table(s). *)

Definition data2d (ptr dim1 : Z) : Z := ptr + dim1 * sizeof_ptr.

Definition data3d (ptr dim1 dim2 : Z) : Z :=
  ptr + dim1 * sizeof_ptr + dim1 * dim2 * sizeof_ptr.

(** Bytes of the whole 2-D / 3-D container, as mathematical integers. *)
Definition bytes2d (dim1 dim2 data_size : Z) : Z :=
  dim1 * sizeof_ptr + dim1 * dim2 * data_size.

Definition bytes3d (dim1 dim2 dim3 data_size : Z) : Z :=
  dim1 * sizeof_ptr + dim1 * dim2 * sizeof_ptr + dim1 * dim2 * dim3 * data_size.

(** [s] holds at [ptr] a 2-D container: one allocation made of the row
    table followed by the data, and ptr[i][j] is element i*dim2+j of the
    data. *)
Record container2d (s : mem) (ptr dim1 dim2 data_size : Z) : Prop := {
  c2_block : blocks s !! ptr = Some (bytes2d dim1 dim2 data_size);
  c2_index : ∀ i j, 0 <= i < dim1 → 0 <= j < dim2 →
    index2d s ptr i j data_size
    = Some (data2d ptr dim1 + (i * dim2 + j) * data_size)
}.

Record container3d (s : mem) (ptr dim1 dim2 dim3 data_size : Z) : Prop := {
  c3_block : blocks s !! ptr = Some (bytes3d dim1 dim2 dim3 data_size);
  c3_index : ∀ i j k, 0 <= i < dim1 → 0 <= j < dim2 → 0 <= k < dim3 →
    index3d s ptr i j k data_size
    = Some (data3d ptr dim1 dim2 + ((i * dim2 + j) * dim3 + k) * data_size)
}.

(** The flat byte range a memset/memcpy of [n] bytes from the start of the
    data region covers, and the bytes that belong to some element. *)
Definition in_flat (data n addr : Z) : Prop := data <= addr < data + n.

Definition in_element2d (s : mem) (ptr dim1 dim2 data_size addr : Z) : Prop :=
  ∃ i j e, 0 <= i < dim1 ∧ 0 <= j < dim2
    ∧ index2d s ptr i j data_size = Some e ∧ e <= addr < e + data_size.

Definition in_element3d (s : mem) (ptr dim1 dim2 dim3 data_size addr : Z)
  : Prop :=
  ∃ i j k e, 0 <= i < dim1 ∧ 0 <= j < dim2 ∧ 0 <= k < dim3
    ∧ index3d s ptr i j k data_size = Some e ∧ e <= addr < e + data_size.

(** The outcome [r] of an allocation function is a 2-D container at [a],
    made of one new block on top of the heap [h]: contiguous, covered
    exactly by a flat pass over dim1*dim2*data_size bytes, and gone after
    one [free2d]. *)
Definition allocates2d (r : option (Z * mem)) (h : gmap Z Z)
  (a dim1 dim2 data_size : Z) : Prop :=
  ∃ s', r = Some (a, s')
    ∧ container2d s' a dim1 dim2 data_size
    ∧ blocks s' = <[a := bytes2d dim1 dim2 data_size]> h
    ∧ (∀ addr, in_flat (data2d a dim1) (dim1 * dim2 * data_size) addr
               ↔ in_element2d s' a dim1 dim2 data_size addr)
    ∧ (free2d a s').1 = NULL
    ∧ blocks (free2d a s').2 = delete a h.

Definition allocates3d (r : option (Z * mem)) (h : gmap Z Z)
  (a dim1 dim2 dim3 data_size : Z) : Prop :=
  ∃ s', r = Some (a, s')
    ∧ container3d s' a dim1 dim2 dim3 data_size
    ∧ blocks s' = <[a := bytes3d dim1 dim2 dim3 data_size]> h
    ∧ (∀ addr, in_flat (data3d a dim1 dim2) (dim1 * dim2 * dim3 * data_size) addr
               ↔ in_element3d s' a dim1 dim2 dim3 data_size addr)
    ∧ (free3d a s').1 = NULL
    ∧ blocks (free3d a s').2 = delete a h.

(** The three free functions, and a run of them over one pointer cell. *)
Inductive free_fn := Free1d | Free2d | Free3d.

Definition call_free (f : free_fn) (cell : Z) (s : mem) : Z * mem :=
  match f with
  | Free1d => free1d cell s
  | Free2d => free2d cell s
  | Free3d => free3d cell s
  end.

Fixpoint call_frees (fs : list free_fn) (cell : Z) (s : mem) : Z * mem :=
  match fs with
  | [] => (cell, s)
  | f :: fs' => let '(cell', s') := call_free f cell s in call_frees fs' cell' s'
  end.

(** A run of stores through one base pointer, [off k] bytes in, for
    k = i, i+1, ..., i+n-1: the shape of every loop of md_malloc.c. *)
Fixpoint store_seq (n : nat) (i base : Z) (off val : Z → Z) (s : mem)
  : option mem :=
  match n with
  | O => Some s
  | S n' => s' ← store base (off i) (val i) s; store_seq n' (i + 1) base off val s'
  end.

(** *** Proofs *)

Hypothesis sizeof_ptr_pos : 0 < sizeof_ptr.
Hypothesis size_mod_pos : 0 < size_mod.

Lemma wrap_small x : 0 <= x < size_mod → wrap x = x.
Proof. intros Hx. unfold wrap. now apply Z.mod_small. Qed.

Lemma wrap_mul_l x y : wrap (wrap x * y) = wrap (x * y).
Proof. unfold wrap. apply Zmult_mod_idemp_l. Qed.

Lemma wrap_mul_r x y : wrap (x * wrap y) = wrap (x * y).
Proof. unfold wrap. apply Zmult_mod_idemp_r. Qed.

Lemma wrap_add_l x y : wrap (wrap x + y) = wrap (x + y).
Proof. unfold wrap. apply Zplus_mod_idemp_l. Qed.

Lemma wrap_add_r x y : wrap (x + wrap y) = wrap (x + y).
Proof. unfold wrap. apply Zplus_mod_idemp_r. Qed.

Lemma store_ok base off v s len :
  base ≠ NULL → blocks s !! base = Some len →
  0 <= off → off + sizeof_ptr <= len →
  store base off v s
  = Some (Mem (blocks s) (<[base + off := v]> (cells s)) (frees s)).
Proof.
  intros Hb Hl H0 H1. unfold store.
  destruct (decide (base = NULL)) as [|Hnn]; [contradiction|].
  rewrite Hl. destruct (decide _) as [|Hn]; [reflexivity|].
  exfalso. apply Hn. split; assumption.
Qed.

Lemma store_seq_spec base off val len n :
  base ≠ NULL →
  ∀ i s,
    blocks s !! base = Some len →
    (∀ k, i <= k < i + Z.of_nat n → 0 <= off k ∧ off k + sizeof_ptr <= len) →
    (∀ k k', i <= k < i + Z.of_nat n → i <= k' < i + Z.of_nat n →
             off k = off k' → k = k') →
    ∃ s', store_seq n i base off val s = Some s'
      ∧ blocks s' = blocks s ∧ frees s' = frees s
      ∧ (∀ k, i <= k < i + Z.of_nat n →
              cells s' !! (base + off k) = Some (val k))
      ∧ (∀ addr, (∀ k, i <= k < i + Z.of_nat n → addr ≠ base + off k) →
                 cells s' !! addr = cells s !! addr).
Proof.
  intros Hbase. induction n as [|m IH]; intros i s Hblk Hin Hinj.
  - exists s. simpl. repeat split; auto. intros k Hk. lia.
  - simpl store_seq.
    destruct (Hin i ltac:(lia)) as [Hlo Hhi].
    rewrite (store_ok _ _ _ _ _ Hbase Hblk Hlo Hhi). simpl.
    set (s1 := Mem (blocks s) (<[base + off i := val i]> (cells s)) (frees s)).
    destruct (IH (i + 1) s1) as (s' & Hrun & Hb & Hf & Hset & Hframe).
    + exact Hblk.
    + intros k Hk. apply Hin. lia.
    + intros k k' Hk Hk'. apply Hinj; lia.
    + exists s'. split; [exact Hrun|]. split; [exact Hb|]. split; [exact Hf|].
      split.
      * intros k Hk. destruct (decide (k = i)) as [->|Hne].
        -- rewrite Hframe.
           ++ subst s1. simpl. apply lookup_insert_eq.
           ++ intros k' Hk' Heq.
              assert (off i = off k') as E by lia.
              apply Hinj in E; lia.
        -- apply Hset. lia.
      * intros addr Hother. rewrite Hframe.
        -- subst s1. simpl. apply lookup_insert_ne.
           intros E. apply (Hother i); [lia|]. symmetry. exact E.
        -- intros k Hk. apply Hother. lia.
Qed.

Lemma set_rows_seq n : ∀ i ptr p2 stride s,
  set_rows n i ptr p2 stride s
  = store_seq n i ptr (λ k, k * sizeof_ptr) (λ k, p2 + wrap (k * stride)) s.
Proof.
  induction n as [|n' IH]; intros; simpl; [reflexivity|].
  destruct (store _ _ _ _); simpl; [apply IH|reflexivity].
Qed.

Lemma set_planes_seq n : ∀ i ptr p2 dim2 s,
  set_planes n i ptr p2 dim2 s
  = store_seq n i ptr (λ k, k * sizeof_ptr)
      (λ k, p2 + wrap (k * dim2) * sizeof_ptr) s.
Proof.
  induction n as [|n' IH]; intros; simpl; [reflexivity|].
  destruct (store _ _ _ _); simpl; [apply IH|reflexivity].
Qed.

Lemma set_rows3_seq m : ∀ i j ptr p2off p3 dim2 stride1 stride2 s,
  set_rows3 m i j ptr p2off p3 dim2 stride1 stride2 s
  = store_seq m j ptr
      (λ q, p2off + wrap (wrap (i * dim2) + q) * sizeof_ptr)
      (λ q, p3 + wrap (wrap (i * stride1) + wrap (q * stride2))) s.
Proof.
  induction m as [|m' IH]; intros; simpl; [reflexivity|].
  destruct (store _ _ _ _); simpl; [apply IH|reflexivity].
Qed.

(** **** 2-D: the row table *)

Lemma init2d_container ptr dim1 dim2 data_size s :
  ptr ≠ NULL → 0 <= dim1 → 0 <= dim2 → 0 <= data_size →
  bytes2d dim1 dim2 data_size < size_mod →
  blocks s !! ptr = Some (bytes2d dim1 dim2 data_size) →
  ∃ s', init2d ptr dim1 (wrap (dim2 * data_size)) s = Some (ptr, s')
    ∧ container2d s' ptr dim1 dim2 data_size
    ∧ blocks s' = blocks s ∧ frees s' = frees s.
Proof.
  intros Hp H1 H2 Hd Hfit Hblk. unfold init2d, bytes2d in *.
  assert (0 <= dim2 * data_size) as Hs by nia.
  rewrite set_rows_seq.
  destruct (store_seq_spec ptr (λ k, k * sizeof_ptr)
              (λ k, ptr + dim1 * sizeof_ptr + wrap (k * wrap (dim2 * data_size)))
              _ (Z.to_nat dim1) Hp 0 s Hblk)
    as (s' & Hrun & Hb & Hf & Hset & _).
  - intros k Hk. rewrite Z2Nat.id in Hk by lia. nia.
  - intros k k' _ _ E. nia.
  - rewrite Hrun. simpl. exists s'. split; [reflexivity|].
    split; [|split; assumption].
    split.
    + rewrite Hb. exact Hblk.
    + intros i j Hi Hj. unfold index2d, load.
      specialize (Hset i). simpl in Hset. rewrite Hset by (rewrite Z2Nat.id; lia).
      simpl. f_equal. rewrite wrap_mul_r, wrap_small by nia.
      unfold data2d. ring.
Qed.

Lemma size2d_bytes dim1 dim2 data_size :
  0 <= dim1 → 0 <= dim2 → 0 <= data_size →
  bytes2d dim1 dim2 data_size < size_mod →
  size2d dim1 (wrap (dim2 * data_size)) = bytes2d dim1 dim2 data_size.
Proof.
  intros H1 H2 Hd Hfit. unfold size2d, bytes2d in *.
  rewrite wrap_mul_r, wrap_add_l, wrap_add_r.
  rewrite Z.mul_assoc. apply wrap_small. nia.
Qed.

Lemma malloc2d_container a dim1 dim2 data_size s :
  a ≠ NULL → 0 <= dim1 → 0 <= dim2 → 0 <= data_size →
  bytes2d dim1 dim2 data_size < size_mod →
  ∃ s', malloc2d a dim1 dim2 data_size s = Some (a, s')
    ∧ container2d s' a dim1 dim2 data_size
    ∧ blocks s' = <[a := bytes2d dim1 dim2 data_size]> (blocks s)
    ∧ frees s' = frees s.
Proof.
  intros Ha H1 H2 Hd Hfit. unfold malloc2d, malloc.
  destruct (decide (a = NULL)) as [|_]; [contradiction|].
  rewrite size2d_bytes by assumption.
  destruct (init2d_container a dim1 dim2 data_size
              (Mem (<[a := bytes2d dim1 dim2 data_size]> (blocks s))
                   (cells s) (frees s)))
    as (s' & Hrun & Hc & Hb & Hf); try assumption.
  { simpl. apply lookup_insert_eq. }
  exists s'. rewrite Hrun. auto.
Qed.

Lemma realloc2d_container a old dim1 dim2 data_size s :
  a ≠ NULL → 0 <= dim1 → 0 <= dim2 → 0 <= data_size →
  bytes2d dim1 dim2 data_size < size_mod →
  ∃ s', realloc2d a old dim1 dim2 data_size s = Some (a, s')
    ∧ container2d s' a dim1 dim2 data_size
    ∧ blocks s' = <[a := bytes2d dim1 dim2 data_size]> (delete old (blocks s))
    ∧ frees s' = frees s.
Proof.
  intros Ha H1 H2 Hd Hfit. unfold realloc2d, realloc.
  destruct (decide (a = NULL)) as [|_]; [contradiction|].
  rewrite size2d_bytes by assumption.
  destruct (init2d_container a dim1 dim2 data_size
              (Mem (<[a := bytes2d dim1 dim2 data_size]> (delete old (blocks s)))
                   (cells s) (frees s)))
    as (s' & Hrun & Hc & Hb & Hf); try assumption.
  { simpl. apply lookup_insert_eq. }
  exists s'. rewrite Hrun. auto.
Qed.

Lemma calloc2d_container a dim1 dim2 data_size s :
  a ≠ NULL → 0 <= dim1 → 0 <= dim2 → 0 <= data_size →
  bytes2d dim1 dim2 data_size < size_mod →
  ∃ s', calloc2d a dim1 dim2 data_size s = Some (a, s')
    ∧ container2d s' a dim1 dim2 data_size
    ∧ blocks s' = <[a := bytes2d dim1 dim2 data_size]> (blocks s)
    ∧ frees s' = frees s.
Proof.
  intros Ha H1 H2 Hd Hfit. unfold calloc2d, calloc.
  destruct (decide (a = NULL)) as [|_]; [contradiction|].
  assert (dim1 * wrap (sizeof_ptr + wrap (dim2 * data_size))
          = bytes2d dim1 dim2 data_size) as Hsz.
  { destruct (Z.eq_dec dim1 0) as [->|Hnz].
    - unfold bytes2d. ring.
    - unfold bytes2d in *. rewrite wrap_add_r, wrap_small by nia. ring. }
  rewrite Hsz.
  destruct (decide (size_mod <= _)) as [Hbig|_]; [lia|].
  destruct (init2d_container a dim1 dim2 data_size
              (Mem (<[a := bytes2d dim1 dim2 data_size]> (blocks s))
                   (cells s) (frees s)))
    as (s' & Hrun & Hc & Hb & Hf); try assumption.
  { simpl. apply lookup_insert_eq. }
  exists s'. rewrite Hrun. auto.
Qed.

(** **** Arithmetic modulo [size_mod] *)

Lemma wrap_congr_add x x' y y' :
  wrap x = wrap x' → wrap y = wrap y' → wrap (x + y) = wrap (x' + y').
Proof.
  intros Hx Hy. rewrite <- wrap_add_l, <- wrap_add_r, Hx, Hy.
  now rewrite wrap_add_l, wrap_add_r.
Qed.

Lemma wrap_congr_mul x x' y y' :
  wrap x = wrap x' → wrap y = wrap y' → wrap (x * y) = wrap (x' * y').
Proof.
  intros Hx Hy. rewrite <- wrap_mul_l, <- wrap_mul_r, Hx, Hy.
  now rewrite wrap_mul_l, wrap_mul_r.
Qed.

Lemma wrap_congr_wrap x x' : wrap x = wrap x' → wrap (wrap x) = wrap x'.
Proof.
  intros Hx. rewrite <- Hx. unfold wrap. apply Zmod_mod.
Qed.

(** [wrap E = wrap E'] where [E'] is [E] with its inner [wrap]s removed. *)
Ltac wrap_strip :=
  repeat first [ apply wrap_congr_wrap | apply wrap_congr_add
               | apply wrap_congr_mul | reflexivity ].

(** **** 3-D: the plane table and the row table *)

Section three_d.

Variables ptr dim1 dim2 dim3 data_size : Z.
Hypothesis ptr_not_null : ptr ≠ NULL.
Hypothesis dim1_nonneg : 0 <= dim1.
Hypothesis dim2_nonneg : 0 <= dim2.
Hypothesis dim3_nonneg : 0 <= dim3.
Hypothesis data_size_nonneg : 0 <= data_size.
Hypothesis fits : bytes3d dim1 dim2 dim3 data_size < size_mod.

Let stride1 := wrap (wrap (dim2 * dim3) * data_size).
Let stride2 := wrap (dim3 * data_size).
Let p2off := dim1 * sizeof_ptr.

Lemma flat_index_bound i j :
  0 <= i < dim1 → 0 <= j < dim2 → 0 <= i * dim2 + j < dim1 * dim2.
Proof. intros Hi Hj. nia. Qed.

Lemma bytes3d_parts :
  0 <= dim1 * dim2 ∧ 0 <= dim1 * dim2 * dim3 * data_size
  ∧ dim1 * dim2 < size_mod ∧ dim1 * dim2 * dim3 * data_size < size_mod.
Proof.
  unfold bytes3d in fits.
  assert (0 <= dim1 * dim2) by nia.
  assert (0 <= dim1 * dim2 * dim3 * data_size) by nia.
  repeat split; try assumption; nia.
Qed.

Lemma row_offset_eq i j :
  0 <= i < dim1 → 0 <= j < dim2 →
  wrap (wrap (i * dim2) + j) = i * dim2 + j.
Proof.
  intros Hi Hj. destruct bytes3d_parts as (? & ? & ? & ?).
  pose proof (flat_index_bound i j Hi Hj).
  rewrite wrap_add_l. apply wrap_small. lia.
Qed.

Lemma row_value_eq i j :
  0 <= i < dim1 → 0 <= j < dim2 →
  wrap (wrap (i * stride1) + wrap (j * stride2))
  = (i * dim2 + j) * dim3 * data_size.
Proof.
  intros Hi Hj. destruct bytes3d_parts as (? & ? & ? & ?).
  pose proof (flat_index_bound i j Hi Hj).
  unfold stride1, stride2.
  transitivity (wrap ((i * dim2 + j) * dim3 * data_size)).
  - etransitivity; [wrap_strip | f_equal; ring].
  - apply wrap_small. nia.
Qed.

Lemma set_rows3_spec p3 len i s :
  0 <= i < dim1 →
  blocks s !! ptr = Some len →
  p2off + dim1 * dim2 * sizeof_ptr <= len →
  ∃ s', set_rows3 (Z.to_nat dim2) i 0 ptr p2off p3 dim2 stride1 stride2 s
        = Some s'
    ∧ blocks s' = blocks s ∧ frees s' = frees s
    ∧ (∀ j, 0 <= j < dim2 →
         cells s' !! (ptr + p2off + (i * dim2 + j) * sizeof_ptr)
         = Some (p3 + (i * dim2 + j) * dim3 * data_size))
    ∧ (∀ addr,
         ¬ (ptr + p2off + i * dim2 * sizeof_ptr <= addr
            < ptr + p2off + (i + 1) * dim2 * sizeof_ptr) →
         cells s' !! addr = cells s !! addr).
Proof.
  intros Hi Hblk Hlen. rewrite set_rows3_seq.
  destruct (store_seq_spec ptr
              (λ q, p2off + wrap (wrap (i * dim2) + q) * sizeof_ptr)
              (λ q, p3 + wrap (wrap (i * stride1) + wrap (q * stride2)))
              len (Z.to_nat dim2) ptr_not_null 0 s Hblk)
    as (s' & Hrun & Hb & Hf & Hset & Hframe).
  - intros q Hq. rewrite Z2Nat.id in Hq by lia.
    rewrite row_offset_eq by lia.
    pose proof (flat_index_bound i q Hi ltac:(lia)).
    unfold p2off in *. nia.
  - intros q q' Hq Hq' E. rewrite Z2Nat.id in Hq, Hq' by lia.
    rewrite !row_offset_eq in E by lia. nia.
  - exists s'. split; [exact Hrun|]. split; [exact Hb|]. split; [exact Hf|].
    split.
    + intros j Hj. specialize (Hset j). simpl in Hset.
      rewrite row_offset_eq, row_value_eq in Hset by lia.
      rewrite <- Hset by (rewrite Z2Nat.id; lia).
      f_equal. ring.
    + intros addr Hout. apply Hframe. intros q Hq E.
      rewrite Z2Nat.id in Hq by lia.
      rewrite row_offset_eq in E by lia. apply Hout. nia.
Qed.

Lemma set_cells3_spec p3 len n :
  ∀ i s,
    0 <= i → i + Z.of_nat n <= dim1 →
    blocks s !! ptr = Some len →
    p2off + dim1 * dim2 * sizeof_ptr <= len →
    ∃ s', set_cells3 n i ptr p2off p3 dim2 stride1 stride2 s = Some s'
      ∧ blocks s' = blocks s ∧ frees s' = frees s
      ∧ (∀ i' j, i <= i' < i + Z.of_nat n → 0 <= j < dim2 →
           cells s' !! (ptr + p2off + (i' * dim2 + j) * sizeof_ptr)
           = Some (p3 + (i' * dim2 + j) * dim3 * data_size))
      ∧ (∀ addr,
           ¬ (ptr + p2off + i * dim2 * sizeof_ptr <= addr
              < ptr + p2off + (i + Z.of_nat n) * dim2 * sizeof_ptr) →
           cells s' !! addr = cells s !! addr).
Proof.
  induction n as [|m IH]; intros i s Hi Hn Hblk Hlen.
  - exists s. simpl. repeat split; auto. intros i' j Hi'. lia.
  - simpl set_cells3.
    destruct (set_rows3_spec p3 len i s ltac:(lia) Hblk Hlen)
      as (s1 & Hrun1 & Hb1 & Hf1 & Hset1 & Hframe1).
    rewrite Hrun1. simpl.
    destruct (IH (i + 1) s1) as (s' & Hrun & Hb & Hf & Hset & Hframe);
      [lia | lia | congruence | exact Hlen |].
    exists s'. split; [exact Hrun|].
    split; [congruence|]. split; [congruence|]. split.
    + intros i' j Hi' Hj. destruct (decide (i' = i)) as [->|Hne].
      * rewrite Hframe; [apply Hset1; exact Hj|]. nia.
      * apply Hset; lia.
    + intros addr Hout. rewrite Hframe by nia. apply Hframe1. nia.
Qed.

Lemma init3d_container s :
  blocks s !! ptr = Some (bytes3d dim1 dim2 dim3 data_size) →
  ∃ s', init3d ptr dim1 dim2 stride1 stride2 s = Some (ptr, s')
    ∧ container3d s' ptr dim1 dim2 dim3 data_size
    ∧ blocks s' = blocks s ∧ frees s' = frees s.
Proof.
  intros Hblk. destruct bytes3d_parts as (Hd12 & Hdat & Hd12' & Hdat').
  unfold init3d. fold p2off. rewrite set_planes_seq.
  destruct (store_seq_spec ptr (λ k, k * sizeof_ptr)
              (λ k, ptr + p2off + wrap (k * dim2) * sizeof_ptr)
              _ (Z.to_nat dim1) ptr_not_null 0 s Hblk)
    as (s1 & Hrun1 & Hb1 & Hf1 & Hset1 & _).
  { intros k Hk. rewrite Z2Nat.id in Hk by lia. unfold bytes3d. nia. }
  { intros k k' _ _ E. nia. }
  rewrite Hrun1. simpl.
  destruct (set_cells3_spec
              (ptr + p2off + wrap (dim1 * dim2) * sizeof_ptr)
              (bytes3d dim1 dim2 dim3 data_size) (Z.to_nat dim1) 0 s1)
    as (s2 & Hrun2 & Hb2 & Hf2 & Hset2 & Hframe2).
  { lia. } { rewrite Z2Nat.id; lia. } { congruence. }
  { unfold bytes3d, p2off. nia. }
  rewrite Hrun2. simpl. exists s2. split; [reflexivity|].
  split; [|split; congruence]. split.
  - rewrite Hb2, Hb1. exact Hblk.
  - intros i j k Hi Hj Hk. unfold index3d, load.
    rewrite Hframe2 by (rewrite Z2Nat.id by lia; unfold p2off; nia).
    specialize (Hset1 i). simpl in Hset1.
    rewrite Hset1 by (rewrite Z2Nat.id; lia). simpl.
    rewrite (wrap_small (i * dim2)) by nia.
    replace (ptr + p2off + i * dim2 * sizeof_ptr + j * sizeof_ptr)
      with (ptr + p2off + (i * dim2 + j) * sizeof_ptr) by ring.
    rewrite Hset2 by (rewrite ?Z2Nat.id; lia). simpl. f_equal.
    rewrite (wrap_small (dim1 * dim2)) by lia.
    unfold data3d, p2off. ring.
Qed.

Lemma size3d_bytes :
  size3d dim1 dim2 stride1 = bytes3d dim1 dim2 dim3 data_size.
Proof.
  destruct bytes3d_parts as (Hd12 & Hdat & Hd12' & Hdat').
  unfold size3d, stride1.
  transitivity (wrap (bytes3d dim1 dim2 dim3 data_size)).
  - etransitivity; [wrap_strip | f_equal; unfold bytes3d; ring].
  - apply wrap_small. unfold bytes3d in *. nia.
Qed.

Lemma calloc3d_bytes :
  dim1 * wrap (wrap (sizeof_ptr + wrap (dim2 * sizeof_ptr)) + stride1)
  = bytes3d dim1 dim2 dim3 data_size.
Proof.
  destruct bytes3d_parts as (Hd12 & Hdat & Hd12' & Hdat').
  destruct (Z.eq_dec dim1 0) as [E|Hnz].
  - rewrite E. unfold bytes3d. ring.
  - assert (wrap (wrap (sizeof_ptr + wrap (dim2 * sizeof_ptr)) + stride1)
            = sizeof_ptr + dim2 * sizeof_ptr + dim2 * dim3 * data_size) as ->.
    { unfold stride1.
      transitivity
        (wrap (sizeof_ptr + dim2 * sizeof_ptr + dim2 * dim3 * data_size)).
      - etransitivity; [wrap_strip | f_equal; ring].
      - apply wrap_small. unfold bytes3d in fits. nia. }
    unfold bytes3d. ring.
Qed.

End three_d.

Lemma malloc3d_container a dim1 dim2 dim3 data_size s :
  a ≠ NULL → 0 <= dim1 → 0 <= dim2 → 0 <= dim3 → 0 <= data_size →
  bytes3d dim1 dim2 dim3 data_size < size_mod →
  ∃ s', malloc3d a dim1 dim2 dim3 data_size s = Some (a, s')
    ∧ container3d s' a dim1 dim2 dim3 data_size
    ∧ blocks s' = <[a := bytes3d dim1 dim2 dim3 data_size]> (blocks s)
    ∧ frees s' = frees s.
Proof.
  intros Ha H1 H2 H3 Hd Hfit. unfold malloc3d, malloc.
  destruct (decide (a = NULL)) as [|_]; [contradiction|].
  rewrite size3d_bytes by assumption.
  destruct (init3d_container a dim1 dim2 dim3 data_size Ha H1 H2 H3 Hd Hfit
              (Mem (<[a := bytes3d dim1 dim2 dim3 data_size]> (blocks s))
                   (cells s) (frees s)))
    as (s' & Hrun & Hc & Hb & Hf).
  { simpl. apply lookup_insert_eq. }
  exists s'. rewrite Hrun. auto.
Qed.

Lemma realloc3d_container a old dim1 dim2 dim3 data_size s :
  a ≠ NULL → 0 <= dim1 → 0 <= dim2 → 0 <= dim3 → 0 <= data_size →
  bytes3d dim1 dim2 dim3 data_size < size_mod →
  ∃ s', realloc3d a old dim1 dim2 dim3 data_size s = Some (a, s')
    ∧ container3d s' a dim1 dim2 dim3 data_size
    ∧ blocks s'
      = <[a := bytes3d dim1 dim2 dim3 data_size]> (delete old (blocks s))
    ∧ frees s' = frees s.
Proof.
  intros Ha H1 H2 H3 Hd Hfit. unfold realloc3d, realloc.
  destruct (decide (a = NULL)) as [|_]; [contradiction|].
  rewrite size3d_bytes by assumption.
  destruct (init3d_container a dim1 dim2 dim3 data_size Ha H1 H2 H3 Hd Hfit
              (Mem (<[a := bytes3d dim1 dim2 dim3 data_size]>
                      (delete old (blocks s)))
                   (cells s) (frees s)))
    as (s' & Hrun & Hc & Hb & Hf).
  { simpl. apply lookup_insert_eq. }
  exists s'. rewrite Hrun. auto.
Qed.

Lemma calloc3d_container a dim1 dim2 dim3 data_size s :
  a ≠ NULL → 0 <= dim1 → 0 <= dim2 → 0 <= dim3 → 0 <= data_size →
  bytes3d dim1 dim2 dim3 data_size < size_mod →
  ∃ s', calloc3d a dim1 dim2 dim3 data_size s = Some (a, s')
    ∧ container3d s' a dim1 dim2 dim3 data_size
    ∧ blocks s' = <[a := bytes3d dim1 dim2 dim3 data_size]> (blocks s)
    ∧ frees s' = frees s.
Proof.
  intros Ha H1 H2 H3 Hd Hfit. unfold calloc3d, calloc.
  destruct (decide (a = NULL)) as [|_]; [contradiction|].
  rewrite calloc3d_bytes by assumption.
  destruct (decide (size_mod <= _)) as [Hbig|_]; [lia|].
  destruct (init3d_container a dim1 dim2 dim3 data_size Ha H1 H2 H3 Hd Hfit
              (Mem (<[a := bytes3d dim1 dim2 dim3 data_size]> (blocks s))
                   (cells s) (frees s)))
    as (s' & Hrun & Hc & Hb & Hf).
  { simpl. apply lookup_insert_eq. }
  exists s'. rewrite Hrun. auto.
Qed.

(** **** A flat pass over the data region meets every element, and only
    elements *)

Lemma chunk_of_offset n size b :
  0 <= n → 0 <= size →
  0 <= b < n * size ↔ ∃ e, 0 <= e < n ∧ e * size <= b < e * size + size.
Proof.
  intros Hn Hs. split.
  - intros Hb. assert (0 < size) as Hpos by nia.
    exists (b / size).
    pose proof (Z.div_mod b size ltac:(lia)) as E.
    pose proof (Z.mod_pos_bound b size Hpos) as Hm.
    assert (0 <= b / size) by (apply Z.div_pos; lia).
    assert (b / size < n) by (apply Z.div_lt_upper_bound; nia).
    repeat split; nia.
  - intros (e & He & Hb). nia.
Qed.

Lemma flat_cover2d s ptr dim1 dim2 data_size :
  0 <= dim1 → 0 <= dim2 → 0 <= data_size →
  container2d s ptr dim1 dim2 data_size →
  ∀ addr, in_flat (data2d ptr dim1) (dim1 * dim2 * data_size) addr
          ↔ in_element2d s ptr dim1 dim2 data_size addr.
Proof.
  intros H1 H2 Hd [_ Hidx] addr. unfold in_flat, in_element2d. split.
  - intros Hflat.
    assert (0 <= dim1 * dim2) as H12 by nia.
    destruct (proj1 (chunk_of_offset (dim1 * dim2) data_size
                       (addr - data2d ptr dim1) H12 Hd) ltac:(lia))
      as (e & He & Hb).
    destruct (proj1 (chunk_of_offset dim1 dim2 e H1 H2) He) as (i & Hi & Hj).
    exists i, (e - i * dim2), (data2d ptr dim1 + e * data_size).
    split; [exact Hi|]. split; [lia|]. split; [|lia].
    rewrite Hidx by lia. f_equal. ring.
  - intros (i & j & e & Hi & Hj & He & Hb).
    rewrite Hidx in He by assumption. injection He as <-.
    assert (0 <= i * dim2 + j < dim1 * dim2) by nia. nia.
Qed.

Lemma flat_cover3d s ptr dim1 dim2 dim3 data_size :
  0 <= dim1 → 0 <= dim2 → 0 <= dim3 → 0 <= data_size →
  container3d s ptr dim1 dim2 dim3 data_size →
  ∀ addr, in_flat (data3d ptr dim1 dim2) (dim1 * dim2 * dim3 * data_size) addr
          ↔ in_element3d s ptr dim1 dim2 dim3 data_size addr.
Proof.
  intros H1 H2 H3 Hd [_ Hidx] addr. unfold in_flat, in_element3d.
  assert (0 <= dim1 * dim2) as H12 by nia.
  assert (0 <= dim1 * dim2 * dim3) as H123 by nia.
  split.
  - intros Hflat.
    destruct (proj1 (chunk_of_offset (dim1 * dim2 * dim3) data_size
                       (addr - data3d ptr dim1 dim2) H123 Hd) ltac:(lia))
      as (e & He & Hb).
    destruct (proj1 (chunk_of_offset (dim1 * dim2) dim3 e H12 H3) He)
      as (q & Hq & Hk).
    destruct (proj1 (chunk_of_offset dim1 dim2 q H1 H2) Hq) as (i & Hi & Hj).
    exists i, (q - i * dim2), (e - q * dim3),
           (data3d ptr dim1 dim2 + e * data_size).
    split; [exact Hi|]. split; [lia|]. split; [lia|]. split; [|lia].
    rewrite Hidx by lia. f_equal. ring.
  - intros (i & j & k & e & Hi & Hj & Hk & He & Hb).
    rewrite Hidx in He by assumption. injection He as <-.
    assert (0 <= i * dim2 + j < dim1 * dim2) as Hq by nia.
    assert (0 <= (i * dim2 + j) * dim3 + k < dim1 * dim2 * dim3) by nia.
    nia.
Qed.

(** **** One free releases the block *)

Lemma free2d_block a s h n :
  a ≠ NULL → blocks s = <[a := n]> h →
  (free2d a s).1 = NULL ∧ blocks (free2d a s).2 = delete a h.
Proof.
  intros Ha Hb. unfold free2d.
  destruct (decide (a ≠ NULL)) as [_|Hn]; [|contradiction].
  simpl. rewrite Hb. split; [reflexivity|]. apply delete_insert_eq.
Qed.

Lemma free3d_block a s h n :
  a ≠ NULL → blocks s = <[a := n]> h →
  (free3d a s).1 = NULL ∧ blocks (free3d a s).2 = delete a h.
Proof.
  intros Ha Hb. unfold free3d.
  destruct (decide (a ≠ NULL)) as [_|Hn]; [|contradiction].
  simpl. rewrite Hb. split; [reflexivity|]. apply delete_insert_eq.
Qed.

Lemma allocates2d_intro r h a dim1 dim2 data_size s' :
  a ≠ NULL → 0 <= dim1 → 0 <= dim2 → 0 <= data_size →
  r = Some (a, s') →
  container2d s' a dim1 dim2 data_size →
  blocks s' = <[a := bytes2d dim1 dim2 data_size]> h →
  allocates2d r h a dim1 dim2 data_size.
Proof.
  intros Ha H1 H2 Hd Hr Hc Hb. exists s'.
  split; [exact Hr|]. split; [exact Hc|]. split; [exact Hb|].
  split; [apply flat_cover2d; assumption|].
  eapply free2d_block; eassumption.
Qed.

Lemma allocates3d_intro r h a dim1 dim2 dim3 data_size s' :
  a ≠ NULL → 0 <= dim1 → 0 <= dim2 → 0 <= dim3 → 0 <= data_size →
  r = Some (a, s') →
  container3d s' a dim1 dim2 dim3 data_size →
  blocks s' = <[a := bytes3d dim1 dim2 dim3 data_size]> h →
  allocates3d r h a dim1 dim2 dim3 data_size.
Proof.
  intros Ha H1 H2 H3 Hd Hr Hc Hb. exists s'.
  split; [exact Hr|]. split; [exact Hc|]. split; [exact Hb|].
  split; [apply flat_cover3d; assumption|].
  eapply free3d_block; eassumption.
Qed.

(** C9, as the code has it: whenever libc answers the request with a block
    (a is not NULL) and the byte count of the container, pointer tables
    included, fits a size_t (no wrap-around in dim1*sizeof(void* ) +
    dim1*dim2*data_size, resp. its 3-D counterpart), malloc2d, calloc2d and
    realloc2d (malloc3d, calloc3d and realloc3d) return that block laid out
    as one container: the pointer table(s) first, the data right after them,
    ptr[i][j] at byte (i*dim2+j)*data_size of the data (ptr[i][j][k] at byte
    ((i*dim2+j)*dim3+k)*data_size); a flat pass over dim1*dim2[*dim3]*data_size
    bytes from the start of the data meets exactly the bytes of the elements;
    and one free2d / free3d of the returned pointer removes the whole block
    and leaves NULL in the cell. *)
Theorem md_malloc_contiguous a old dim1 dim2 dim3 data_size s :
  a ≠ NULL → 0 <= dim1 → 0 <= dim2 → 0 <= dim3 → 0 <= data_size →
  (bytes2d dim1 dim2 data_size < size_mod →
     allocates2d (malloc2d a dim1 dim2 data_size s)
                 (blocks s) a dim1 dim2 data_size
   ∧ allocates2d (calloc2d a dim1 dim2 data_size s)
                 (blocks s) a dim1 dim2 data_size
   ∧ allocates2d (realloc2d a old dim1 dim2 data_size s)
                 (delete old (blocks s)) a dim1 dim2 data_size)
  ∧ (bytes3d dim1 dim2 dim3 data_size < size_mod →
     allocates3d (malloc3d a dim1 dim2 dim3 data_size s)
                 (blocks s) a dim1 dim2 dim3 data_size
   ∧ allocates3d (calloc3d a dim1 dim2 dim3 data_size s)
                 (blocks s) a dim1 dim2 dim3 data_size
   ∧ allocates3d (realloc3d a old dim1 dim2 dim3 data_size s)
                 (delete old (blocks s)) a dim1 dim2 dim3 data_size).
Proof.
  intros Ha H1 H2 H3 Hd. split; intros Hfit.
  - destruct (malloc2d_container a dim1 dim2 data_size s)
      as (sm & Hm & Hcm & Hbm & _); try assumption.
    destruct (calloc2d_container a dim1 dim2 data_size s)
      as (sc & Hc & Hcc & Hbc & _); try assumption.
    destruct (realloc2d_container a old dim1 dim2 data_size s)
      as (sr & Hr & Hcr & Hbr & _); try assumption.
    repeat split; eapply allocates2d_intro; eassumption.
  - destruct (malloc3d_container a dim1 dim2 dim3 data_size s)
      as (sm & Hm & Hcm & Hbm & _); try assumption.
    destruct (calloc3d_container a dim1 dim2 dim3 data_size s)
      as (sc & Hc & Hcc & Hbc & _); try assumption.
    destruct (realloc3d_container a old dim1 dim2 dim3 data_size s)
      as (sr & Hr & Hcr & Hbr & _); try assumption.
    repeat split; eapply allocates3d_intro; eassumption.
Qed.

(** **** Beyond the layout: what the functions do when libc fails, when the
    sizes wrap around, and what they leave alone *)

Lemma store_some base off v s s' :
  store base off v s = Some s' →
  base ≠ NULL
  ∧ blocks s' = blocks s ∧ frees s' = frees s
  ∧ cells s' = <[base + off := v]> (cells s).
Proof.
  unfold store. intros H.
  destruct (decide (base = NULL)) as [|Hnn]; [discriminate|].
  destruct (blocks s !! base) as [len|]; [|discriminate].
  destruct (decide _) as [Hin|]; [|discriminate].
  injection H as <-. auto.
Qed.

Lemma store_seq_some base off val n :
  ∀ i s s', store_seq n i base off val s = Some s' →
            blocks s' = blocks s ∧ frees s' = frees s.
Proof.
  induction n as [|m IH]; intros i s s' H; simpl in H.
  - injection H as <-. auto.
  - destruct (store base (off i) (val i) s) as [s1|] eqn:E; [|discriminate].
    simpl in H. apply store_some in E as (_ & Hb & Hf & _).
    apply IH in H as [Hb' Hf']. split; congruence.
Qed.

Lemma store_seq_null off val n i s :
  (0 < n)%nat → store_seq n i NULL off val s = None.
Proof.
  destruct n as [|m]; [lia|]. intros _. simpl. unfold store.
  destruct (decide (NULL = NULL)); [reflexivity|congruence].
Qed.

Lemma set_cells3_some ptr p2off p3 dim2 stride1 stride2 n :
  ∀ i s s',
    set_cells3 n i ptr p2off p3 dim2 stride1 stride2 s = Some s' →
    blocks s' = blocks s ∧ frees s' = frees s.
Proof.
  induction n as [|m IH]; intros i s s' H; simpl in H.
  - injection H as <-. auto.
  - destruct (set_rows3 _ _ _ _ _ _ _ _ _ s) as [s1|] eqn:E; [|discriminate].
    simpl in H. rewrite set_rows3_seq in E.
    apply store_seq_some in E as [Hb Hf].
    apply IH in H as [Hb' Hf']. split; congruence.
Qed.

Lemma init2d_some ptr dim1 stride s p s' :
  init2d ptr dim1 stride s = Some (p, s') →
  p = ptr ∧ blocks s' = blocks s ∧ frees s' = frees s.
Proof.
  unfold init2d. intros H.
  destruct (set_rows _ _ _ _ _ s) as [s1|] eqn:E; [|discriminate].
  simpl in H. injection H as <- <-. rewrite set_rows_seq in E.
  apply store_seq_some in E. tauto.
Qed.

Lemma init3d_some ptr dim1 dim2 stride1 stride2 s p s' :
  init3d ptr dim1 dim2 stride1 stride2 s = Some (p, s') →
  p = ptr ∧ blocks s' = blocks s ∧ frees s' = frees s.
Proof.
  unfold init3d. intros H.
  destruct (set_planes _ _ _ _ _ s) as [s1|] eqn:E1; [|discriminate].
  simpl in H.
  destruct (set_cells3 _ _ _ _ _ _ _ _ s1) as [s2|] eqn:E2; [|discriminate].
  simpl in H. injection H as <- <-. rewrite set_planes_seq in E1.
  apply store_seq_some in E1 as [Hb1 Hf1].
  apply set_cells3_some in E2 as [Hb2 Hf2]. repeat split; congruence.
Qed.

Lemma init2d_null dim1 stride s :
  0 < dim1 → init2d NULL dim1 stride s = None.
Proof.
  intros H. unfold init2d. rewrite set_rows_seq, store_seq_null by lia.
  reflexivity.
Qed.

Lemma init3d_null dim1 dim2 stride1 stride2 s :
  0 < dim1 → init3d NULL dim1 dim2 stride1 stride2 s = None.
Proof.
  intros H. unfold init3d. rewrite set_planes_seq, store_seq_null by lia.
  reflexivity.
Qed.

(** When libc has no block to give (it answers NULL) and the array has at
    least one row, none of the six 2-D / 3-D functions returns: each goes on
    to write ptr[0] through the null pointer. With dim1 = 0 the loops do not
    run and NULL is returned, the memory as it was. *)
Theorem alloc_failure_is_not_reported old dim1 dim2 dim3 data_size s :
  0 < dim1 →
  malloc2d NULL dim1 dim2 data_size s = None
  ∧ calloc2d NULL dim1 dim2 data_size s = None
  ∧ realloc2d NULL old dim1 dim2 data_size s = None
  ∧ malloc3d NULL dim1 dim2 dim3 data_size s = None
  ∧ calloc3d NULL dim1 dim2 dim3 data_size s = None
  ∧ realloc3d NULL old dim1 dim2 dim3 data_size s = None
  ∧ malloc2d NULL 0 dim2 data_size s = Some (NULL, s)
  ∧ malloc3d NULL 0 dim2 dim3 data_size s = Some (NULL, s).
Proof.
  intros H.
  unfold malloc2d, calloc2d, realloc2d, malloc3d, calloc3d, realloc3d,
    malloc, calloc, realloc.
  destruct (decide (NULL = NULL)) as [_|Hn]; [|congruence].
  rewrite !init2d_null, !init3d_null by exact H.
  repeat split; reflexivity.
Qed.

Lemma size2d_wraps dim1 dim2 data_size :
  size2d dim1 (wrap (dim2 * data_size)) = wrap (bytes2d dim1 dim2 data_size).
Proof.
  unfold size2d, bytes2d.
  etransitivity; [wrap_strip | f_equal; ring].
Qed.

Lemma size3d_wraps dim1 dim2 dim3 data_size :
  size3d dim1 dim2 (wrap (wrap (dim2 * dim3) * data_size))
  = wrap (bytes3d dim1 dim2 dim3 data_size).
Proof.
  unfold size3d, bytes3d.
  etransitivity; [wrap_strip | f_equal; ring].
Qed.

Lemma wrap_lt_of_overflow x : size_mod <= x → wrap x < x.
Proof.
  intros H. unfold wrap.
  pose proof (Z.mod_pos_bound x size_mod size_mod_pos). lia.
Qed.

(** The block malloc2d, realloc2d, malloc3d and realloc3d ask libc for is the
    byte count of the container taken modulo SIZE_MAX+1: no function checks
    the product for overflow. So when the count does not fit a size_t and
    libc grants the request, the returned block is shorter than the
    container the dimensions describe. *)
Theorem block_length_wraps a old dim1 dim2 dim3 data_size s p s' :
  p ≠ NULL →
  (malloc2d a dim1 dim2 data_size s = Some (p, s')
   ∨ realloc2d a old dim1 dim2 data_size s = Some (p, s') →
   blocks s' !! p = Some (wrap (bytes2d dim1 dim2 data_size))
   ∧ (size_mod <= bytes2d dim1 dim2 data_size →
      wrap (bytes2d dim1 dim2 data_size) < bytes2d dim1 dim2 data_size))
  ∧ (malloc3d a dim1 dim2 dim3 data_size s = Some (p, s')
     ∨ realloc3d a old dim1 dim2 dim3 data_size s = Some (p, s') →
     blocks s' !! p = Some (wrap (bytes3d dim1 dim2 dim3 data_size))
     ∧ (size_mod <= bytes3d dim1 dim2 dim3 data_size →
        wrap (bytes3d dim1 dim2 dim3 data_size)
        < bytes3d dim1 dim2 dim3 data_size)).
Proof.
  intros Hp. split; intros H; (split; [|apply wrap_lt_of_overflow]).
  - unfold malloc2d, realloc2d, malloc, realloc in H.
    rewrite size2d_wraps in H.
    destruct (decide (a = NULL)) as [->|Ha];
      destruct H as [H|H]; apply init2d_some in H as (-> & Hb & _);
      try contradiction; rewrite Hb; simpl; apply lookup_insert_eq.
  - unfold malloc3d, realloc3d, malloc, realloc in H.
    rewrite size3d_wraps in H.
    destruct (decide (a = NULL)) as [->|Ha];
      destruct H as [H|H]; apply init3d_some in H as (-> & Hb & _);
      try contradiction; rewrite Hb; simpl; apply lookup_insert_eq.
Qed.





Lemma flat_index_inj dim2 i j i' j' :
  0 <= j < dim2 → 0 <= j' < dim2 →
  (i, j) ≠ (i', j') → i * dim2 + j ≠ i' * dim2 + j'.
Proof.
  intros Hj Hj' Hne E. apply Hne.
  assert (i = i') as -> by nia. f_equal. lia.
Qed.

(** [s'] is what one of the three 2-D (3-D) allocation functions returned
    with, at address [a]. *)
Definition returned2d (a old dim1 dim2 data_size : Z) (s s' : mem) : Prop :=
  malloc2d a dim1 dim2 data_size s = Some (a, s')
  ∨ calloc2d a dim1 dim2 data_size s = Some (a, s')
  ∨ realloc2d a old dim1 dim2 data_size s = Some (a, s').

Definition returned3d (a old dim1 dim2 dim3 data_size : Z) (s s' : mem)
  : Prop :=
  malloc3d a dim1 dim2 dim3 data_size s = Some (a, s')
  ∨ calloc3d a dim1 dim2 dim3 data_size s = Some (a, s')
  ∨ realloc3d a old dim1 dim2 dim3 data_size s = Some (a, s').

Lemma returned2d_container a old dim1 dim2 data_size s s' :
  a ≠ NULL → 0 <= dim1 → 0 <= dim2 → 0 <= data_size →
  bytes2d dim1 dim2 data_size < size_mod →
  returned2d a old dim1 dim2 data_size s s' →
  container2d s' a dim1 dim2 data_size.
Proof.
  intros Ha H1 H2 Hd Hfit [H|[H|H]].
  - destruct (malloc2d_container a dim1 dim2 data_size s)
      as (s0 & E & Hc & _); try assumption. congruence.
  - destruct (calloc2d_container a dim1 dim2 data_size s)
      as (s0 & E & Hc & _); try assumption. congruence.
  - destruct (realloc2d_container a old dim1 dim2 data_size s)
      as (s0 & E & Hc & _); try assumption. congruence.
Qed.

Lemma returned3d_container a old dim1 dim2 dim3 data_size s s' :
  a ≠ NULL → 0 <= dim1 → 0 <= dim2 → 0 <= dim3 → 0 <= data_size →
  bytes3d dim1 dim2 dim3 data_size < size_mod →
  returned3d a old dim1 dim2 dim3 data_size s s' →
  container3d s' a dim1 dim2 dim3 data_size.
Proof.
  intros Ha H1 H2 H3 Hd Hfit [H|[H|H]].
  - destruct (malloc3d_container a dim1 dim2 dim3 data_size s)
      as (s0 & E & Hc & _); try assumption. congruence.
  - destruct (calloc3d_container a dim1 dim2 dim3 data_size s)
      as (s0 & E & Hc & _); try assumption. congruence.
  - destruct (realloc3d_container a old dim1 dim2 dim3 data_size s)
      as (s0 & E & Hc & _); try assumption. congruence.
Qed.

(** In a container one of the six functions returned (allocation granted,
    byte count within size_t, elements of at least one byte), every element
    lies after the pointer tables and inside the block, and two elements
    with different indices share no byte. *)
Theorem elements_are_disjoint_and_in_bounds
  a old dim1 dim2 dim3 data_size s s' :
  a ≠ NULL → 0 <= dim1 → 0 <= dim2 → 0 <= dim3 → 0 < data_size →
  (bytes2d dim1 dim2 data_size < size_mod →
   returned2d a old dim1 dim2 data_size s s' →
   ∀ i j i' j' e e',
     0 <= i < dim1 → 0 <= j < dim2 → 0 <= i' < dim1 → 0 <= j' < dim2 →
     index2d s' a i j data_size = Some e →
     index2d s' a i' j' data_size = Some e' →
     (data2d a dim1 <= e ∧ e + data_size <= a + bytes2d dim1 dim2 data_size)
     ∧ ((i, j) ≠ (i', j') → e + data_size <= e' ∨ e' + data_size <= e))
  ∧ (bytes3d dim1 dim2 dim3 data_size < size_mod →
     returned3d a old dim1 dim2 dim3 data_size s s' →
     ∀ i j k i' j' k' e e',
       0 <= i < dim1 → 0 <= j < dim2 → 0 <= k < dim3 →
       0 <= i' < dim1 → 0 <= j' < dim2 → 0 <= k' < dim3 →
       index3d s' a i j k data_size = Some e →
       index3d s' a i' j' k' data_size = Some e' →
       (data3d a dim1 dim2 <= e
        ∧ e + data_size <= a + bytes3d dim1 dim2 dim3 data_size)
       ∧ ((i, j, k) ≠ (i', j', k') →
          e + data_size <= e' ∨ e' + data_size <= e)).
Proof.
  intros Ha H1 H2 H3 Hd. split; intros Hfit Hret.
  - destruct (returned2d_container a old dim1 dim2 data_size s s')
      as [_ Hidx]; try assumption; try lia.
    intros i j i' j' e e' Hi Hj Hi' Hj' He He'.
    rewrite Hidx in He, He' by assumption.
    injection He as <-. injection He' as <-.
    assert (0 <= i * dim2 + j < dim1 * dim2) as Hq by nia.
    assert (0 <= i' * dim2 + j' < dim1 * dim2) as Hq' by nia.
    split.
    + unfold bytes2d, data2d. nia.
    + intros Hne. pose proof (flat_index_inj dim2 i j i' j' Hj Hj' Hne). nia.
  - destruct (returned3d_container a old dim1 dim2 dim3 data_size s s')
      as [_ Hidx]; try assumption; try lia.
    intros i j k i' j' k' e e' Hi Hj Hk Hi' Hj' Hk' He He'.
    rewrite Hidx in He, He' by assumption.
    injection He as <-. injection He' as <-.
    assert (0 <= i * dim2 + j < dim1 * dim2) as Hq by nia.
    assert (0 <= i' * dim2 + j' < dim1 * dim2) as Hq' by nia.
    assert (0 <= (i * dim2 + j) * dim3 + k < dim1 * dim2 * dim3) as Hr by nia.
    assert (0 <= (i' * dim2 + j') * dim3 + k' < dim1 * dim2 * dim3)
      as Hr' by nia.
    split.
    + unfold bytes3d, data3d. nia.
    + intros Hne.
      assert ((i * dim2 + j) * dim3 + k ≠ (i' * dim2 + j') * dim3 + k') as Hd3.
      { apply flat_index_inj; [assumption..|].
        intros E. injection E as E ->.
        destruct (decide ((i, j) = (i', j'))) as [E2|Hne2].
        - injection E2 as -> ->. contradiction.
        - apply (flat_index_inj dim2 i j i' j' Hj Hj' Hne2). exact E. }
      nia.
Qed.


End md_malloc.

(** *** On an LP64 machine: 8-byte pointers, 64-bit size_t *)

Example malloc2d_2x3 :
  ∃ s', malloc2d 8 (2 ^ 64) 4096 2 3 4 empty_mem = Some (4096, s')
    ∧ blocks s' !! 4096 = Some 40
    ∧ load 4096 s' = Some 4112 ∧ load 4104 s' = Some 4124
    ∧ index2d 8 s' 4096 1 2 4 = Some 4132.
Proof. eexists. repeat split; vm_compute; reflexivity. Qed.

Example calloc3d_2x3x2 :
  ∃ s', calloc3d 8 (2 ^ 64) 4096 2 3 2 4 empty_mem = Some (4096, s')
    ∧ blocks s' !! 4096 = Some 112
    ∧ load 4096 s' = Some 4112 ∧ load 4104 s' = Some 4136
    ∧ load 4112 s' = Some 4160 ∧ load 4152 s' = Some 4200
    ∧ index3d 8 s' 4096 1 2 1 4 = Some 4204.
Proof. eexists. repeat split; vm_compute; reflexivity. Qed.

Example malloc3d_no_memory :
  malloc3d 8 (2 ^ 64) NULL 2 3 2 4 empty_mem = None
  ∧ malloc2d 8 (2 ^ 64) NULL 0 3 4 empty_mem = Some (NULL, empty_mem).
Proof. split; vm_compute; reflexivity. Qed.

Example free_thrice :
  call_frees [Free2d; Free1d; Free3d] 4096 (Mem {[4096 := 40]} ∅ [])
  = (NULL, Mem ∅ ∅ [4096]).
Proof. vm_compute. reflexivity. Qed.

(** On an LP64 machine (8-byte pointers, 64-bit size_t): a 2 x 3 x 2 array of
    4-byte elements, and a 2 x 3 array, at address 4096 of an empty heap. *)
Lemma md_malloc_contiguous_lp64 :
  allocates2d 8 (malloc2d 8 (2 ^ 64) 4096 2 3 4 empty_mem) ∅ 4096 2 3 4
  ∧ allocates3d 8 (realloc3d 8 (2 ^ 64) 4096 0 2 3 2 4 empty_mem)
      (delete 0 ∅) 4096 2 3 2 4.
Proof.
  pose proof (md_malloc_contiguous 8 (2 ^ 64) ltac:(lia) ltac:(lia)
                4096 0 2 3 2 4 empty_mem) as H.
  destruct H as [H2 H3]; try (unfold NULL; lia).
  split.
  - apply H2. unfold bytes2d. lia.
  - apply H3. unfold bytes3d. lia.
Defined.

(** C9 as stated ("for all dimensions") fails on the code in two ways, here
    on an LP64 machine.
    - libc has no memory left (it answers NULL): malloc2d stores ptr[0]
      through the null pointer, and returns no container.
    - dim2*data_size wraps around: for dim1 = 2, dim2 = 2^63, data_size = 2
      the stride is 0 and 16 bytes are requested; the block holds the row
      table only, both rows point at its end, and ptr[1][0] is ptr[0][0]. *)
Lemma md_malloc_not_for_all_dimensions :
  malloc2d 8 (2 ^ 64) NULL 1 1 4 empty_mem = None
  ∧ is_size_t (2 ^ 64) 2 ∧ is_size_t (2 ^ 64) (2 ^ 63)
  ∧ ∃ s', malloc2d 8 (2 ^ 64) 4096 2 (2 ^ 63) 2 empty_mem = Some (4096, s')
      ∧ blocks s' !! 4096 = Some 16
      ∧ index2d 8 s' 4096 0 0 2 = Some (data2d 8 4096 2)
      ∧ index2d 8 s' 4096 1 0 2 = Some (data2d 8 4096 2)
      ∧ ¬ container2d 8 s' 4096 2 (2 ^ 63) 2.
Proof.
  split; [vm_compute; reflexivity|].
  split; [unfold is_size_t; lia|]. split; [unfold is_size_t; lia|].
  eexists. split; [vm_compute; reflexivity|].
  split; [vm_compute; reflexivity|].
  split; [vm_compute; reflexivity|].
  split; [vm_compute; reflexivity|].
  intros [Hblk _]. vm_compute in Hblk. discriminate Hblk.
Qed.

(** *** The further properties, on an LP64 machine *)

(** A 3 x 4 (x 2) array when libc is out of memory. *)
Lemma alloc_failure_is_not_reported_lp64 :
  malloc2d 8 (2 ^ 64) NULL 3 4 4 empty_mem = None
  ∧ calloc2d 8 (2 ^ 64) NULL 3 4 4 empty_mem = None
  ∧ realloc3d 8 (2 ^ 64) NULL 4096 3 4 2 4 empty_mem = None.
Proof.
  destruct (alloc_failure_is_not_reported 8 (2 ^ 64) 4096 3 4 2 4 empty_mem)
    as (H1 & H2 & _ & _ & _ & H6 & _); [lia|].
  repeat split; assumption.
Defined.

(** dim2 * data_size = 2^64: the 2 x 2^63 array of 2-byte elements gets a
    16-byte block, 2^65 bytes short. *)
Lemma block_length_wraps_lp64 :
  ∃ s', malloc2d 8 (2 ^ 64) 4096 2 (2 ^ 63) 2 empty_mem = Some (4096, s')
    ∧ blocks s' !! 4096 = Some (wrap (2 ^ 64) (bytes2d 8 2 (2 ^ 63) 2))
    ∧ wrap (2 ^ 64) (bytes2d 8 2 (2 ^ 63) 2) = 16
    ∧ wrap (2 ^ 64) (bytes2d 8 2 (2 ^ 63) 2) < bytes2d 8 2 (2 ^ 63) 2.
Proof.
  eexists. split; [vm_compute; reflexivity|].
  match goal with
  | |- blocks ?s !! _ = _ ∧ _ =>
      destruct (block_length_wraps 8 (2 ^ 64) ltac:(lia)
                  4096 0 2 (2 ^ 63) 0 2 empty_mem 4096 s)
        as [H2 _]; [unfold NULL; lia|]
  end.
  destruct H2 as [Hb Hlt]; [left; vm_compute; reflexivity|].
  split; [exact Hb|]. split; [vm_compute; reflexivity|].
  apply Hlt. vm_compute. discriminate.
Defined.


(** The last element of row 0 and the first of row 1 of a 2 x 3 array of
    4-byte elements. *)
Lemma elements_are_disjoint_and_in_bounds_lp64 :
  ∃ s', malloc2d 8 (2 ^ 64) 4096 2 3 4 empty_mem = Some (4096, s')
    ∧ index2d 8 s' 4096 0 2 4 = Some 4120
    ∧ index2d 8 s' 4096 1 0 4 = Some 4124
    ∧ (data2d 8 4096 2 <= 4120 ∧ 4120 + 4 <= 4096 + bytes2d 8 2 3 4)
    ∧ (4120 + 4 <= 4124 ∨ 4124 + 4 <= 4120).
Proof.
  eexists. split; [vm_compute; reflexivity|].
  match goal with
  | |- context [index2d 8 ?s 4096 0 2 4] =>
      destruct (elements_are_disjoint_and_in_bounds 8 (2 ^ 64)
                  ltac:(lia) ltac:(lia) 4096 0 2 3 0 4 empty_mem s)
        as [H2 _]; [unfold NULL; lia | lia | lia | lia | lia |];
      split; [vm_compute; reflexivity|];
      split; [vm_compute; reflexivity|];
      assert (bytes2d 8 2 3 4 < 2 ^ 64) as Hfit by (unfold bytes2d; lia);
      assert (returned2d 8 (2 ^ 64) 4096 0 2 3 4 empty_mem s) as Hret
        by (left; vm_compute; reflexivity);
      assert (index2d 8 s 4096 0 2 4 = Some 4120) as He
        by (vm_compute; reflexivity);
      assert (index2d 8 s 4096 1 0 4 = Some 4124) as He'
        by (vm_compute; reflexivity);
      destruct (H2 Hfit Hret 0 2 1 0 4120 4124
                  ltac:(lia) ltac:(lia) ltac:(lia) ltac:(lia) He He')
        as [Hb Hd]
  end.
  split; [exact Hb|]. apply Hd. congruence.
Defined.


(** **** free1d, free2d, free3d *)

Lemma call_free_eq f cell s :
  call_free f cell s = if decide (cell = NULL) then (NULL, s)
                       else (NULL, free cell s).
Proof.
  destruct f; simpl; unfold free1d, free2d, free3d;
    destruct (decide (cell ≠ NULL)) as [Hne|He];
    destruct (decide (cell = NULL)) as [E|Hn];
    try reflexivity; try contradiction.
  all: subst cell; reflexivity.
Qed.

Lemma call_frees_null fs s : call_frees fs NULL s = (NULL, s).
Proof.
  induction fs as [|f fs IH]; simpl; [reflexivity|].
  rewrite call_free_eq. destruct (decide (NULL = NULL)); [exact IH|congruence].
Qed.

(** C10: whatever a pointer cell holds, after free1d, free2d or free3d it
    holds NULL; on a cell that holds NULL the call changes neither the cell
    nor the memory and calls libc's free not at all; so however many of
    these calls follow one another on the same cell, libc's free is called
    at most once, by the first of them, with the pointer the cell held. *)
Theorem free_md_nulls_the_cell (f : free_fn) (fs : list free_fn)
  (cell : Z) (s : mem) :
  (call_free f cell s).1 = NULL
  ∧ call_free f NULL s = (NULL, s)
  ∧ (call_free f cell s).2 = (if decide (cell = NULL) then s else free cell s)
  ∧ call_frees (f :: fs) cell s = call_free f cell s
  ∧ frees (call_frees (f :: fs) cell s).2
    = (if decide (cell = NULL) then frees s else cell :: frees s).
Proof.
  assert (call_frees (f :: fs) cell s = call_free f cell s) as Hrun.
  { simpl. destruct (call_free f cell s) as [c' s'] eqn:E.
    rewrite call_free_eq in E.
    destruct (decide (cell = NULL)); injection E as <- <-;
      apply call_frees_null. }
  rewrite Hrun, !call_free_eq.
  destruct (decide (NULL = NULL)) as [_|Hn]; [|congruence].
  destruct (decide (cell = NULL)); simpl; auto.
Qed.

End MdMalloc.

(* ===================================================================== *)
(** ** The codec lifecycle: CODEC_STATUS and PROC_STATUS                 *)
(* ===================================================================== *)

Module Lifecycle.

(** ambi_dec_internal.h (and powermap_internal.h): enum _PROC_STATUS.
    PROC_STATUS_ONGOING (= 0): the codec is processing input audio and
    should not be reinitialised; PROC_STATUS_NOT_ONGOING: it is not, and
    may be reinitialised. The spec calls them ONGOING and IDLE. *)
Inductive PROC_STATUS := PROC_STATUS_ONGOING | PROC_STATUS_NOT_ONGOING.

(** Modelled from the spec: CodecState, "one of {NOT_INITIALIZED,
    INITIALIZING, INITIALIZED}". The enum CODEC_STATUS behind the field
    codecStatus is declared in ambi_dec.h, which is not part of the
    sources. *)
Inductive CODEC_STATUS := NOT_INITIALIZED | INITIALIZING | INITIALIZED.

#[global] Instance CODEC_STATUS_eq_dec : EqDecision CODEC_STATUS.
Proof. solve_decision. Defined.

#[global] Instance PROC_STATUS_eq_dec : EqDecision PROC_STATUS.
Proof. solve_decision. Defined.

Section lifecycle.

(** The external collaborators of the spec (sections 2 and 6): the staged
    user parameters, the three products of a rebuild, and the routines
    that build them; a routine answers [None] when it fails. [needs_hrtf]
    is "binauralization is active or HRTF source changed". *)
Variable UserParameters : Type.
Variable DecodingMatrixSet HrtfDatabase VbapInterpolationTable : Type.
Variable build_matrices : UserParameters → option DecodingMatrixSet.
Variable build_hrtf : UserParameters → option HrtfDatabase.
Variable build_vbap : HrtfDatabase → option VbapInterpolationTable.
Variable needs_hrtf : UserParameters → bool.

(** Modelled from the spec: what the Frame Processor reads, "the last
    INITIALIZED snapshot": a decoding matrix set, and the HRTF database with
    its interpolation table once one was built. *)
Record Snapshot := {
  matrices : DecodingMatrixSet;
  hrtfs : option (HrtfDatabase * VbapInterpolationTable)
}.

(** Modelled from the spec: a rebuild in progress, owned by the control
    thread. It works from the parameters that were pending when it began;
    a component is [None] until it is built. *)
Record Rebuild := {
  latched : UserParameters;
  new_matrices : option DecodingMatrixSet;
  new_hrtf : option HrtfDatabase;
  new_vbap : option VbapInterpolationTable
}.

(** Modelled from the spec: the state the two threads share (data model,
    sections 4.1 and 5). In struct _ambi_dec the two flags are the fields
    codecStatus and procStatus. [published] is [None] until the first
    rebuild succeeds: the processor passes silence. *)
Record state := {
  codecStatus : CODEC_STATUS;
  procStatus : PROC_STATUS;
  pending : UserParameters;
  reinitScheduled : bool;
  failed : bool;
  published : option Snapshot;
  rebuild : option Rebuild
}.

(** Modelled from the spec: what the two threads do (sections 4.1, 5 and 6),
    one atomic step each; ambi_dec.c, which holds the functions, is not part
    of the sources. *)
Inductive event :=
  | SetParameters (p : UserParameters)  (* a setter of the host *)
  | RequestReinit                       (* requestReinit() *)
  | ApplyScheduled                      (* a scheduled request takes effect *)
  | TickBegin                           (* tick(): the check passes *)
  | TickBuild                           (* tick(): one component is built *)
  | TickPublish                         (* tick(): the swap *)
  | FrameStart                          (* audio thread, frame start *)
  | FrameEnd.                           (* audio thread, frame end *)

Definition initial (p : UserParameters) : state :=
  {| codecStatus := NOT_INITIALIZED; procStatus := PROC_STATUS_NOT_ONGOING;
     pending := p; reinitScheduled := false; failed := false;
     published := None; rebuild := None |}.

Definition set_codec (c : CODEC_STATUS) (s : state) : state :=
  {| codecStatus := c; procStatus := procStatus s; pending := pending s;
     reinitScheduled := reinitScheduled s; failed := failed s;
     published := published s; rebuild := rebuild s |}.

Definition set_proc (p : PROC_STATUS) (s : state) : state :=
  {| codecStatus := codecStatus s; procStatus := p; pending := pending s;
     reinitScheduled := reinitScheduled s; failed := failed s;
     published := published s; rebuild := rebuild s |}.

Definition set_rebuild (r : option Rebuild) (s : state) : state :=
  {| codecStatus := codecStatus s; procStatus := procStatus s;
     pending := pending s; reinitScheduled := reinitScheduled s;
     failed := failed s; published := published s; rebuild := r |}.

(** Modelled from the spec: the next component of a rebuild (section 4.1),
    "the rebuild of DecodingMatrixSet and, if binauralization is active or
    HRTF source changed, the HrtfDatabase/VbapInterpolationTable". *)
Inductive built := Built (b : Rebuild) | BuildFailed | NothingLeft.

Definition of_option (o : option Rebuild) : built :=
  match o with Some b => Built b | None => BuildFailed end.

Definition build_next (b : Rebuild) : built :=
  match new_matrices b with
  | None =>
      of_option (m ← build_matrices (latched b);
                 Some {| latched := latched b; new_matrices := Some m;
                         new_hrtf := new_hrtf b; new_vbap := new_vbap b |})
  | Some _ =>
      if needs_hrtf (latched b) then
        match new_hrtf b, new_vbap b with
        | None, _ =>
            of_option (h ← build_hrtf (latched b);
                       Some {| latched := latched b;
                               new_matrices := new_matrices b;
                               new_hrtf := Some h; new_vbap := new_vbap b |})
        | Some h, None =>
            of_option (v ← build_vbap h;
                       Some {| latched := latched b;
                               new_matrices := new_matrices b;
                               new_hrtf := new_hrtf b; new_vbap := Some v |})
        | Some _, Some _ => NothingLeft
        end
      else NothingLeft
  end.

(** Modelled from the spec: the snapshot a finished rebuild yields, "swapped
    in as a whole"; [None] while a component is missing. Without a new HRTF
    database the previous one stays. *)
Definition finish (old : option Snapshot) (b : Rebuild) : option Snapshot :=
  m ← new_matrices b;
  if needs_hrtf (latched b) then
    h ← new_hrtf b; v ← new_vbap b;
    Some {| matrices := m; hrtfs := Some (h, v) |}
  else Some {| matrices := m; hrtfs := old ≫= hrtfs |}.

(** Modelled from the spec: one step; [None] when the event cannot happen in
    [s].
    - setters stage their change in [pending];
    - requestReinit() "marks CodecState = NOT_INITIALIZED (or schedules
      change)": it schedules while a rebuild is INITIALIZING, so that "the
      next tick rebuilds again", and marks otherwise;
    - tick() "checks ProcessingState; if IDLE and CodecState is not
      INITIALIZED, it sets CodecState = INITIALIZING, performs the rebuild,
      then sets CodecState = INITIALIZED"; a component that fails makes
      "CodecState revert to NOT_INITIALIZED" and sets [failed];
    - the audio thread "sets ProcessingState = ONGOING at frame start and
      IDLE at frame end". *)
Definition step (e : event) (s : state) : option state :=
  match e with
  | SetParameters p =>
      Some {| codecStatus := codecStatus s; procStatus := procStatus s;
              pending := p; reinitScheduled := reinitScheduled s;
              failed := failed s; published := published s;
              rebuild := rebuild s |}
  | RequestReinit =>
      match codecStatus s with
      | INITIALIZING =>
          Some {| codecStatus := codecStatus s; procStatus := procStatus s;
                  pending := pending s; reinitScheduled := true;
                  failed := failed s; published := published s;
                  rebuild := rebuild s |}
      | _ => Some (set_codec NOT_INITIALIZED s)
      end
  | ApplyScheduled =>
      if reinitScheduled s then
        if decide (codecStatus s ≠ INITIALIZING) then
          Some {| codecStatus := NOT_INITIALIZED; procStatus := procStatus s;
                  pending := pending s; reinitScheduled := false;
                  failed := failed s; published := published s;
                  rebuild := rebuild s |}
        else None
      else None
  | TickBegin =>
      match procStatus s, rebuild s with
      | PROC_STATUS_NOT_ONGOING, None =>
          if decide (codecStatus s ≠ INITIALIZED) then
            Some (set_rebuild
                    (Some {| latched := pending s; new_matrices := None;
                             new_hrtf := None; new_vbap := None |})
                    (set_codec INITIALIZING s))
          else None
      | _, _ => None
      end
  | TickBuild =>
      b ← rebuild s;
      match build_next b with
      | Built b' => Some (set_rebuild (Some b') s)
      | BuildFailed =>
          Some {| codecStatus := NOT_INITIALIZED; procStatus := procStatus s;
                  pending := pending s; reinitScheduled := reinitScheduled s;
                  failed := true; published := published s;
                  rebuild := None |}
      | NothingLeft => None
      end
  | TickPublish =>
      b ← rebuild s;
      snap ← finish (published s) b;
      Some {| codecStatus := INITIALIZED; procStatus := procStatus s;
              pending := pending s; reinitScheduled := reinitScheduled s;
              failed := false; published := Some snap; rebuild := None |}
  | FrameStart =>
      match procStatus s with
      | PROC_STATUS_NOT_ONGOING => Some (set_proc PROC_STATUS_ONGOING s)
      | PROC_STATUS_ONGOING => None
      end
  | FrameEnd =>
      match procStatus s with
      | PROC_STATUS_ONGOING => Some (set_proc PROC_STATUS_NOT_ONGOING s)
      | PROC_STATUS_NOT_ONGOING => None
      end
  end.

(** The histories of the machine, latest state first. *)
Inductive history (p0 : UserParameters) : list state → Prop :=
  | history_initial : history p0 [initial p0]
  | history_step e s s' h :
      history p0 (s :: h) → step e s = Some s' → history p0 (s' :: s :: h).

(** Modelled from the spec: what the Frame Processor reads in state [s], "the
    latest INITIALIZED snapshot". *)
Definition frame_reads (s : state) : option Snapshot := published s.

(** The snapshot that was published the last time CodecState was
    INITIALIZED; [None] if it never was. *)
Fixpoint last_initialized (h : list state) : option Snapshot :=
  match h with
  | [] => None
  | s :: h' =>
      if decide (codecStatus s = INITIALIZED) then published s
      else last_initialized h'
  end.

(** The history a list of events leads to from [h], if each can happen. *)
Fixpoint run (evs : list event) (h : list state) : option (list state) :=
  match evs, h with
  | [], _ => Some h
  | e :: evs', s :: _ => s' ← step e s; run evs' (s' :: h)
  | _ :: _, [] => None
  end.

(** A rebuild begins between [s] and [s']. *)
Definition rebuild_begins (s s' : state) : Prop :=
  rebuild s = None ∧ rebuild s' ≠ None.










(** *** Proofs *)

Ltac step_cases H :=
  unfold step, set_codec, set_proc, set_rebuild in H;
  repeat first [progress case_match | progress simplify_option_eq];
  simpl in *.

(** INITIALIZING is exactly the time a rebuild is in progress. *)
Lemma rebuild_iff_initializing_step e s s' :
  (rebuild s ≠ None ↔ codecStatus s = INITIALIZING) →
  step e s = Some s' →
  (rebuild s' ≠ None ↔ codecStatus s' = INITIALIZING).
Proof.
  intros Hinv Hstep.
  destruct e; step_cases Hstep; intuition congruence.
Qed.

Lemma rebuild_iff_initializing p0 l :
  history p0 l → ∀ s h, l = s :: h →
  (rebuild s ≠ None ↔ codecStatus s = INITIALIZING).
Proof.
  induction 1 as [|e s0 s1 h0 Hh IH Hstep]; intros s h E; injection E as <- <-.
  - simpl. split; [congruence|discriminate].
  - eapply rebuild_iff_initializing_step; [|exact Hstep]. eapply IH; reflexivity.
Qed.

(** Only the swap changes what the Frame Processor reads, and the swap
    ends in INITIALIZED. *)
Lemma published_step e s s' :
  step e s = Some s' →
  codecStatus s' = INITIALIZED ∨ published s' = published s.
Proof.
  intros Hstep. destruct e; step_cases Hstep; auto.
Qed.

Lemma frame_reads_last_initialized p0 l :
  history p0 l → ∀ s h, l = s :: h →
  frame_reads s = last_initialized (s :: h).
Proof.
  unfold frame_reads.
  induction 1 as [|e s0 s1 h0 Hh IH Hstep]; intros s h E; injection E as <- <-.
  - reflexivity.
  - simpl last_initialized at 1.
    destruct (decide (codecStatus s1 = INITIALIZED)) as [|Hn]; [reflexivity|].
    destruct (published_step _ _ _ Hstep) as [|Hp]; [contradiction|].
    rewrite Hp. apply IH. reflexivity.
Qed.

(** A rebuild begins by TickBegin only, whose check saw the processing
    loop idle. *)
Lemma rebuild_begins_idle e s s' :
  step e s = Some s' → rebuild_begins s s' →
  e = TickBegin ∧ procStatus s = PROC_STATUS_NOT_ONGOING
  ∧ codecStatus s ≠ INITIALIZED ∧ codecStatus s' = INITIALIZING
  ∧ published s' = published s.
Proof.
  intros Hstep [Hnone Hsome].
  destruct e; step_cases Hstep; try congruence; auto.
Qed.

Lemma run_history p0 evs :
  ∀ h, history p0 h → ∀ h', run evs h = Some h' → history p0 h'.
Proof.
  induction evs as [|e evs IH]; intros h Hh h' Hrun.
  - simpl in Hrun. destruct h; congruence.
  - destruct h as [|s h]; simpl in Hrun; [discriminate|].
    destruct (step e s) as [s'|] eqn:Hstep; simpl in Hrun; [|discriminate].
    eapply IH; [|exact Hrun]. eapply history_step; eassumption.
Qed.

(** C1, on the lifecycle of the spec: in every state the machine reaches,
    - a rebuild is in progress exactly when CodecState is INITIALIZING, so
      CodecState is INITIALIZING for the whole duration of a rebuild;
    - when a rebuild has just begun, the state it began in had
      ProcessingState IDLE (PROC_STATUS_NOT_ONGOING) and CodecState other
      than INITIALIZED;
    - while CodecState is INITIALIZING the Frame Processor reads the
      snapshot published when CodecState was last INITIALIZED (none, if it
      never was), a complete [Snapshot], never the [Rebuild] in progress. *)
Theorem reinit_guarded_by_status p0 s h :
  history p0 (s :: h) →
  (rebuild s ≠ None ↔ codecStatus s = INITIALIZING)
  ∧ (∀ s0 h0, h = s0 :: h0 → rebuild_begins s0 s →
       procStatus s0 = PROC_STATUS_NOT_ONGOING
       ∧ codecStatus s0 ≠ INITIALIZED ∧ codecStatus s = INITIALIZING)
  ∧ (codecStatus s = INITIALIZING → frame_reads s = last_initialized h)
  ∧ frame_reads s = last_initialized (s :: h).
Proof.
  intros Hh. split; [eapply rebuild_iff_initializing; eauto|].
  split.
  - intros s0 h0 -> Hb. inversion Hh as [|e ? ? ? _ Hstep]; subst.
    destruct (rebuild_begins_idle _ _ _ Hstep Hb) as (_ & Hp & Hc & Hi & _).
    auto.
  - pose proof (frame_reads_last_initialized p0 _ Hh s h eq_refl) as Hf.
    split; [|exact Hf]. intros Hc. rewrite Hf. simpl.
    destruct (decide (codecStatus s = INITIALIZED)); [congruence|reflexivity].
Qed.

(** **** A request while a frame is in flight *)











End lifecycle.

(** A first initialisation, a request to reinitialise issued during a
    frame, and the second rebuild begun once the frame is over: the Frame
    Processor still reads the first snapshot. Every collaborator is the
    one-point type here. *)
Definition demo_events : list (event unit) :=
  [TickBegin unit; TickBuild unit; TickBuild unit; TickBuild unit;
   TickPublish unit; FrameStart unit; RequestReinit unit;
   FrameEnd unit; TickBegin unit; TickBuild unit].

Definition demo_run : option (list (state unit unit unit unit)) :=
  run unit unit unit unit (λ _, Some ()) (λ _, Some ()) (λ _, Some ())
      (λ _, true) demo_events [initial unit unit unit unit ()].

Lemma reinit_guarded_by_status_demo :
  ∃ s h,
    demo_run = Some (s :: h)
    ∧ codecStatus _ _ _ _ s = INITIALIZING
    ∧ frame_reads _ _ _ _ s
      = Some {| matrices := (); hrtfs := Some ((), ()) |}
    ∧ frame_reads _ _ _ _ s = last_initialized _ _ _ _ h.
Proof.
  eexists _, _. split; [vm_compute; reflexivity|].
  split; [reflexivity|]. split; [reflexivity|].
  eapply (reinit_guarded_by_status unit unit unit unit
            (λ _, Some ()) (λ _, Some ()) (λ _, Some ()) (λ _, true) ());
    [|reflexivity].
  apply (run_history unit unit unit unit
           (λ _, Some ()) (λ _, Some ()) (λ _, Some ()) (λ _, true) ()
           demo_events [initial unit unit unit unit ()]).
  - apply history_initial.
  - vm_compute. reflexivity.
Defined.








End Lifecycle.

(* ===================================================================== *)
(** ** ambi_dec_internal.h, powermap_internal.h: the filterbank sizes    *)
(* ===================================================================== *)

Module Filterbank.

(** #define HOP_SIZE ( 128 ), the STFT hop size. *)
Definition HOP_SIZE : Z := 128.

(** #define HYBRID_BANDS ( HOP_SIZE + 5 ) *)
Definition HYBRID_BANDS : Z := HOP_SIZE + 5.

(** #define TIME_SLOTS ( FRAME_SIZE / HOP_SIZE ); FRAME_SIZE comes from the
    public headers, so it is the argument. C's integer division truncates
    toward zero. *)
Definition TIME_SLOTS (FRAME_SIZE : Z) : Z := FRAME_SIZE ÷ HOP_SIZE.

(** The time slots of a frame never reach past it, they leave fewer than
    one hop of samples uncovered, and they cover the frame exactly when
    FRAME_SIZE is a multiple of HOP_SIZE; a frame shorter than one hop has
    no time slot at all. *)
Theorem time_slots_cover_frame (FRAME_SIZE : Z) :
  0 <= FRAME_SIZE →
  TIME_SLOTS FRAME_SIZE * HOP_SIZE <= FRAME_SIZE
  ∧ FRAME_SIZE - TIME_SLOTS FRAME_SIZE * HOP_SIZE < HOP_SIZE
  ∧ (TIME_SLOTS FRAME_SIZE * HOP_SIZE = FRAME_SIZE
     ↔ FRAME_SIZE mod HOP_SIZE = 0)
  ∧ (TIME_SLOTS FRAME_SIZE = 0 ↔ FRAME_SIZE < HOP_SIZE).
Proof.
  intros H. unfold TIME_SLOTS, HOP_SIZE.
  rewrite Z.quot_div_nonneg by lia.
  pose proof (Z.div_mod FRAME_SIZE 128 ltac:(lia)) as E.
  pose proof (Z.mod_pos_bound FRAME_SIZE 128 ltac:(lia)) as B.
  repeat split; try lia.
Qed.

(** The frame sizes behind the comment "4/8/16". *)
Lemma time_slots_cover_frame_1024 :
  TIME_SLOTS 1024 * HOP_SIZE <= 1024
  ∧ 1024 - TIME_SLOTS 1024 * HOP_SIZE < HOP_SIZE
  ∧ (TIME_SLOTS 1024 * HOP_SIZE = 1024 ↔ 1024 mod HOP_SIZE = 0)
  ∧ (TIME_SLOTS 1024 = 0 ↔ 1024 < HOP_SIZE).
Proof. apply (time_slots_cover_frame 1024). lia. Defined.

End Filterbank.
